(** * The TCP echo demo ([demos/tcp_demo.cc]) as a reactor-driven transition system

    The demo is written in continuation-passing style on a single-threaded
    reactor: [tcp_test::run] and [tcp_test::connection::run] each start one
    asynchronous operation, attach a lambda with [.then] and return.  The
    reactor later resolves the future and runs the lambda to completion.

    The embedding follows that structure.  The bodies of the two [run]
    methods and of their lambdas are programs in a small state-and-exception
    monad over the [world]; one [step] of the system is the reactor
    resolving one outstanding future. *)

From stdpp Require Import base list gmap.
From Stdlib Require Import Strings.Byte.

Open Scope nat_scope.

(** ** Data *)

(** A [packet] is the payload handed over by one [read()]; [p.len()] is its
    byte count. *)
Definition packet : Type := list Byte.byte.

Definition len (p : packet) : nat := length p.

(** Connections are named by the order in which [accept()] delivered them. *)
Abbreviation conn_id := nat (only parsing).

(** How a future resolves: with a value, or with an exception. *)
Inductive resolution (A : Type) : Type :=
| Ready (a : A)
| Failed.
Arguments Ready {A} a.
Arguments Failed {A}.

(** How a plain (synchronous) call ends: it returns, or it throws. *)
Inductive outcome (A : Type) : Type :=
| Returns (a : A)
| Throws.
Arguments Returns {A} a.
Arguments Throws {A}.

(** The calls the program makes on the network stack and on stdout, in the
    order in which it makes them. *)
Inductive op : Type :=
| OListen (port : N)                 (* inet.get_tcp().listen(port) *)
| OAccept                            (* _listener.accept() *)
| ONew (c : conn_id)                 (* new connection(std::move(conn)) *)
| OWaitForData (c : conn_id)         (* tcp_conn.wait_for_data() *)
| ORead (c : conn_id) (p : packet)   (* tcp_conn.read(), which returned p *)
| OPrint (n : nat)                   (* fmt::print("read {:d} bytes\n", n) *)
| OSend (c : conn_id) (p : packet)   (* tcp_conn.send(std::move(p)) *)
| OCloseWrite (c : conn_id).         (* tcp_conn.close_write() *)

(** Modelled from the spec: [net::tcp::connection] is declared in the
    network stack ([seastar/net/tcp.hh]), not in the demo.  This is the part
    of it that the demo's calls touch.  The spec gives the stack these
    abilities: to await "data available" asynchronously, to read a buffer of
    length N >= 0, to issue a non-blocking write whose completion comes
    later, and to half-close.  So the operations that return a future
    ([wait_for_data], [send], [close_write]) report completion or failure
    through that future, and [read] returns the packet directly. *)
Record tcp_connection : Type := {
  data_waits : nat;            (* wait_for_data() futures not yet resolved *)
  unresolved : list packet;    (* send() futures not yet resolved, oldest first *)
  write_closed : bool          (* close_write() has been called *)
}.

(** [struct tcp_test::connection]: its only member is [tcp_conn]. *)
Record connection : Type := {
  tcp_conn : tcp_connection
}.

(** Modelled from the spec: [net::tcp::listener], also declared in the
    network stack, as far as the demo uses it: a port, and an unbounded
    sequence of accepted connections awaited one [accept()] at a time. *)
Record listener : Type := {
  port : N;
  accepts : nat;               (* accept() futures not yet resolved *)
  delivered : nat              (* connections handed out so far *)
}.

(** The state of the process: the [tcp_test] object's [_listener], the
    [connection] objects that were made with [new] and not freed since, each
    under the name of the connection it owns, and the calls issued so far. *)
Record world : Type := {
  _listener : listener;
  heap : gmap nat connection;
  log : list op
}.

Definition with_listener (l : listener) (w : world) : world :=
  {| _listener := l; heap := heap w; log := log w |}.

Definition with_heap (h : gmap nat connection) (w : world) : world :=
  {| _listener := _listener w; heap := h; log := log w |}.

Definition with_log (l : list op) (w : world) : world :=
  {| _listener := _listener w; heap := heap w; log := l |}.

Definition set_accepts (n : nat) (l : listener) : listener :=
  {| port := port l; accepts := n; delivered := delivered l |}.

Definition set_delivered (n : nat) (l : listener) : listener :=
  {| port := port l; accepts := accepts l; delivered := n |}.

Definition set_data_waits (n : nat) (k : connection) : connection :=
  {| tcp_conn := {| data_waits := n;
                    unresolved := unresolved (tcp_conn k);
                    write_closed := write_closed (tcp_conn k) |} |}.

Definition set_unresolved (l : list packet) (k : connection) : connection :=
  {| tcp_conn := {| data_waits := data_waits (tcp_conn k);
                    unresolved := l;
                    write_closed := write_closed (tcp_conn k) |} |}.

Definition set_write_closed (b : bool) (k : connection) : connection :=
  {| tcp_conn := {| data_waits := data_waits (tcp_conn k);
                    unresolved := unresolved (tcp_conn k);
                    write_closed := b |} |}.

(** ** The monad of a continuation body

    A body runs on the [world]; a C++ exception leaves the effects made so
    far in place and skips the rest. *)
Definition M (A : Type) : Type := world -> outcome A * world.

Definition ret {A : Type} (a : A) : M A := fun w => (Returns a, w).

Definition throw {A : Type} : M A := fun w => (Throws, w).

Definition bind {A B : Type} (m : M A) (k : A -> M B) : M B :=
  fun w =>
    match m w with
    | (Returns a, w') => k a w'
    | (Throws, w') => (Throws, w')
    end.

Declare Scope echo_scope.
Delimit Scope echo_scope with echo.
Notation "x <- m ;; k" := (bind m (fun x => k))
  (at level 100, m at next level, k at level 200, right associativity) : echo_scope.
Notation "m ;; k" := (bind m (fun _ => k))
  (at level 100, k at level 200, right associativity) : echo_scope.
Open Scope echo_scope.

Definition emit (o : op) : M unit :=
  fun w => (Returns tt, with_log (log w ++ [o]) w).

Definition on_connection (c : conn_id) (f : connection -> connection) : M unit :=
  fun w => (Returns tt, with_heap (alter f c (heap w)) w).

(** A future resolved by the reactor: with the value [a], or with an
    exception. *)
Definition resolved {A : Type} (ok : bool) (a : A) : resolution A :=
  if ok then Ready a else Failed.

(** [future.then(k)]: a ready future runs [k] on its value; a failed one
    skips [k] and the failure becomes the result. *)
Definition then_ {A : Type} (fut : resolution A) (k : A -> M unit) : M unit :=
  match fut with
  | Ready a => k a
  | Failed => throw
  end.

(** [(void)f]: the resulting future, value or exception, is dropped. *)
Definition void (m : M unit) (w : world) : world := snd (m w).

(** ** The calls on the network stack *)

(** Modelled from the spec: [tcp::connection::wait_for_data()] starts
    awaiting "data available, or the peer closed its write side"; the future
    it returns is resolved later by the reactor. *)
Definition wait_for_data (c : conn_id) : M unit :=
  emit (OWaitForData c) ;;
  on_connection c (fun k => set_data_waits (S (data_waits (tcp_conn k))) k).

(** Modelled from the spec: [tcp::connection::read()] performs one read and
    hands over the buffer, of length zero when the peer has closed; [rd] is
    what the stack does on this call. *)
Definition read (c : conn_id) (rd : outcome packet) : M packet :=
  match rd with
  | Returns p => emit (ORead c p) ;; ret p
  | Throws => throw
  end.

(** Modelled from the spec: [tcp::connection::send(packet)] issues a
    non-blocking write of [p]; its completion is a future resolved later. *)
Definition send (c : conn_id) (p : packet) : M unit :=
  emit (OSend c p) ;;
  on_connection c (fun k => set_unresolved (unresolved (tcp_conn k) ++ [p]) k).

(** Modelled from the spec: [tcp::connection::close_write()] closes the
    local write side (half-close). *)
Definition close_write (c : conn_id) : M unit :=
  emit (OCloseWrite c) ;;
  on_connection c (set_write_closed true).

(** [fmt::print("read {:d} bytes\n", n)]. *)
Definition print (n : nat) : M unit := emit (OPrint n).

(** Modelled from the spec: [tcp::listener::accept()] starts awaiting the
    next inbound connection; the future is resolved later by the reactor. *)
Definition accept : M unit :=
  emit OAccept ;;
  fun w => (Returns tt,
            with_listener (set_accepts (S (accepts (_listener w))) (_listener w)) w).

(** Modelled from the spec: a [tcp::connection] as [accept()] delivers it,
    with nothing outstanding on it and both sides open. *)
Definition fresh : connection :=
  {| tcp_conn := {| data_waits := 0; unresolved := []; write_closed := false |} |}.

(** [new connection(std::move(conn))]: a new object that owns [conn]. *)
Definition new_connection (conn : conn_id) : M conn_id :=
  emit (ONew conn) ;;
  fun w => (Returns conn, with_heap (<[conn := fresh]> (heap w)) w).

(** ** The program *)

(** [tcp_test::connection::run]: starts [wait_for_data()] and attaches the
    lambda below; every [wait_for_data] future of a connection carries that
    same lambda. *)
Definition connection_run (this : conn_id) : M unit :=
  wait_for_data this.

(** The lambda of [connection::run]; [rd] is what [tcp_conn.read()] does
    when it is called.  The futures that [close_write] and [send] return are
    cast to [void] in the source: nothing waits for them. *)
Definition connection_run_lambda (this : conn_id) (rd : outcome packet) : M unit :=
  p <- read this rd ;;
  if Nat.eqb (len p) 0 then
    close_write this
  else
    print (len p) ;;
    send this p ;;
    connection_run this.

(** [tcp_test::run]: starts [accept()] and attaches the lambda below. *)
Definition tcp_test_run : M unit :=
  accept.

(** The lambda of [tcp_test::run]. *)
Definition tcp_test_run_lambda (conn : conn_id) : M unit :=
  this <- new_connection conn ;;
  connection_run this ;;
  tcp_test_run.

(** The constructor [tcp_test(ipv4&)] listens on port 10000; [main] then has
    the reactor call [tt.run()]. *)
Definition listen_port : N := 10000%N.

Definition constructed : world :=
  {| _listener := {| port := listen_port; accepts := 0; delivered := 0 |};
     heap := ∅;
     log := [OListen listen_port] |}.

Definition init : world := void tcp_test_run constructed.

(** ** The reactor *)

(** What the reactor can do next: resolve an outstanding future. *)
Inductive event : Type :=
| AcceptResolved (ok : bool)
| DataResolved (c : conn_id) (ok : bool) (rd : outcome packet)
| SendResolved (c : conn_id) (ok : bool).

(** One turn of the reactor.  [None]: no such future is outstanding.  The
    future of a [send] was dropped by the caller, so its resolution, good or
    bad, runs no code of the program. *)
Definition step (e : event) (w : world) : option world :=
  match e with
  | AcceptResolved ok =>
      match accepts (_listener w) with
      | 0 => None
      | S n =>
          let conn := delivered (_listener w) in
          let l := set_accepts n (_listener w) in
          let w0 := with_listener (if ok then set_delivered (S conn) l else l) w in
          Some (void (then_ (resolved ok conn) tcp_test_run_lambda) w0)
      end
  | DataResolved c ok rd =>
      match heap w !! c with
      | None => None
      | Some k =>
          match data_waits (tcp_conn k) with
          | 0 => None
          | S n =>
              let w0 := with_heap (<[c := set_data_waits n k]> (heap w)) w in
              Some (void (then_ (resolved ok tt)
                                 (fun _ => connection_run_lambda c rd)) w0)
          end
      end
  | SendResolved c ok =>
      match heap w !! c with
      | None => None
      | Some k =>
          match unresolved (tcp_conn k) with
          | [] => None
          | _ :: rest =>
              Some (with_heap (<[c := set_unresolved rest k]> (heap w)) w)
          end
      end
  end.

Fixpoint run (es : list event) (w : world) : option world :=
  match es with
  | [] => Some w
  | e :: es' =>
      match step e w with
      | None => None
      | Some w' => run es' w'
      end
  end.

(** ** Observations on the log *)

Definition on_conn (c : conn_id) (o : op) : bool :=
  match o with
  | OWaitForData c' | ORead c' _ | OSend c' _ | OCloseWrite c' => Nat.eqb c' c
  | OListen _ | OAccept | ONew _ | OPrint _ => false
  end.

(** The calls made on connection [c], in order. *)
Definition ops_on (c : conn_id) (l : list op) : list op :=
  List.filter (on_conn c) l.

(** The packets passed to [send] on [c], in order. *)
Definition sends_on (c : conn_id) (l : list op) : list packet :=
  omap (fun o => match o with
                 | OSend c' p => if Nat.eqb c' c then Some p else None
                 | _ => None
                 end) l.

(** The packets returned by [read] on [c], in order. *)
Definition reads_on (c : conn_id) (l : list op) : list packet :=
  omap (fun o => match o with
                 | ORead c' p => if Nat.eqb c' c then Some p else None
                 | _ => None
                 end) l.

Definition is_accept (o : op) : bool :=
  match o with OAccept => true | _ => false end.

Definition accepts_issued (l : list op) : nat :=
  length (List.filter is_accept l).

(** One read-echo round on [c] for the packet [p]. *)
Definition echo_cycle (c : conn_id) (p : packet) : list op :=
  [OWaitForData c; ORead c p; OSend c p].

Fixpoint echo_cycles (c : conn_id) (ps : list packet) : list op :=
  match ps with
  | [] => []
  | p :: ps' => echo_cycle c p ++ echo_cycles c ps'
  end.


(** ** What one turn of the reactor does, connection by connection *)

(** What resolving a [wait_for_data] future does to the connection's object
    [k] and which calls it adds to the log; [n] is the number of other
    [wait_for_data] futures still outstanding. *)
Definition data_effect (c : conn_id) (n : nat) (k : connection)
    (ok : bool) (rd : outcome packet) : connection * list op :=
  match ok, rd with
  | true, Returns p =>
      if Nat.eqb (len p) 0 then
        (set_write_closed true (set_data_waits n k),
         [ORead c p; OCloseWrite c])
      else
        (set_data_waits (S n) (set_unresolved (unresolved (tcp_conn k) ++ [p]) k),
         [ORead c p; OPrint (len p); OSend c p; OWaitForData c])
  | _, _ => (set_data_waits n k, [])
  end.

(** The reactor's turns as a relation; it is the graph of [step]. *)
Inductive turn (w : world) : event -> world -> Prop :=
| turn_accept_failed n :
    accepts (_listener w) = S n ->
    turn w (AcceptResolved false)
      (with_listener (set_accepts n (_listener w)) w)
| turn_accept_ready n :
    accepts (_listener w) = S n ->
    turn w (AcceptResolved true)
      {| _listener := {| port := port (_listener w); accepts := S n;
                         delivered := S (delivered (_listener w)) |};
         heap := <[delivered (_listener w) := set_data_waits 1 fresh]> (heap w);
         log := log w ++ [ONew (delivered (_listener w));
                          OWaitForData (delivered (_listener w)); OAccept] |}
| turn_data c k n ok rd :
    heap w !! c = Some k ->
    data_waits (tcp_conn k) = S n ->
    turn w (DataResolved c ok rd)
      (with_log (log w ++ snd (data_effect c n k ok rd))
         (with_heap (<[c := fst (data_effect c n k ok rd)]> (heap w)) w))
| turn_send c k p rest ok :
    heap w !! c = Some k ->
    unresolved (tcp_conn k) = p :: rest ->
    turn w (SendResolved c ok)
      (with_heap (<[c := set_unresolved rest k]> (heap w)) w).

(** Where a handler is in its life: suspended on [wait_for_data], abandoned
    (its continuation was dropped by a failure), or returned after
    [close_write]. *)
Inductive phase : Type := Suspended | Abandoned | Closed.

Definition phase_waits (ph : phase) : nat :=
  match ph with Suspended => 1 | Abandoned | Closed => 0 end.

Definition phase_closed (ph : phase) : bool :=
  match ph with Closed => true | Suspended | Abandoned => false end.

Definition phase_tail (c : conn_id) (ph : phase) : list op :=
  match ph with
  | Suspended | Abandoned => [OWaitForData c]
  | Closed => [OWaitForData c; ORead c []; OCloseWrite c]
  end.

(** The object [k] of connection [c] agrees with the calls [l] made so far:
    [ps] are the packets echoed, [fin] those whose [send] has resolved. *)
Definition conn_ok (c : conn_id) (k : connection) (l : list op)
    (ps fin : list packet) (ph : phase) : Prop :=
  Forall (fun p : packet => p <> []) ps /\
  ps = fin ++ unresolved (tcp_conn k) /\
  data_waits (tcp_conn k) = phase_waits ph /\
  write_closed (tcp_conn k) = phase_closed ph /\
  ops_on c l = echo_cycles c ps ++ phase_tail c ph.

(** The invariant of the states the program can reach. *)
Definition inv (w : world) : Prop :=
  accepts (_listener w) <= 1 /\
  (forall c, c < delivered (_listener w) ->
     exists k ps fin ph,
       heap w !! c = Some k /\ conn_ok c k (log w) ps fin ph) /\
  (forall c, delivered (_listener w) <= c ->
     heap w !! c = None /\ ops_on c (log w) = []).

(** The handler of [c] has stopped for good: whatever the reactor does from
    [w] on, no further call is made on [c]. *)
Definition handler_over (c : conn_id) (w : world) : Prop :=
  forall es w', run es w = Some w' -> ops_on c (log w') = ops_on c (log w).

(** A [wait_for_data]-then-[read] round that did not produce a packet: the
    future failed, or [read] threw. *)
Definition read_failed (ok : bool) (rd : outcome packet) : bool :=
  match ok, rd with
  | true, Returns _ => false
  | _, _ => true
  end.

(** The calls one successful read of a non-empty packet [p] adds. *)
Definition echo_turn (c : conn_id) (p : packet) : list op :=
  [ORead c p; OPrint (len p); OSend c p; OWaitForData c].

(** A transport-level failure on connection [c]: a failed read round, or a
    [send] whose future resolves with an exception. *)
Definition transport_failure (c : conn_id) (e : event) : bool :=
  match e with
  | AcceptResolved _ => false
  | DataResolved c' ok rd => Nat.eqb c' c && read_failed ok rd
  | SendResolved c' ok => Nat.eqb c' c && negb ok
  end.

(** ** Sample executions *)

(** The state after the reactor made the turns [es] from the start (the
    start itself if [es] is not a possible sequence of turns). *)
Definition after (es : list event) : world := default init (run es init).

(** The four bytes of "ping". *)
Definition ping : packet := [Byte.x70; Byte.x69; Byte.x6e; Byte.x67].

(** One client connects and sends "ping". *)
Definition one_ping : list event :=
  [AcceptResolved true; DataResolved 0 true (Returns ping)].

(** ** Further observations on executions and logs *)

(** The turns of the reactor that resolve a future of connection [c]. *)
Definition event_on (c : conn_id) (e : event) : bool :=
  match e with
  | AcceptResolved _ => false
  | DataResolved c' _ _ | SendResolved c' _ => Nat.eqb c' c
  end.

Definition events_on (c : conn_id) (es : list event) : list event :=
  List.filter (event_on c) es.

(** A process in which [c] is the only connection, just after its handler
    was started: the object made by [new], suspended on its first
    [wait_for_data]. *)
Definition solo (c : conn_id) : world :=
  {| _listener := _listener constructed;
     heap := {[ c := set_data_waits 1 fresh ]};
     log := [OWaitForData c] |}.

(** Two states show the same of connection [c]: the same handler object and
    the same calls on [c]. *)
Definition same_conn (c : conn_id) (w ws : world) : Prop :=
  heap w !! c = heap ws !! c /\ ops_on c (log w) = ops_on c (log ws).

(** Turns after which the lambda of [connection::run] calls [run()] again,
    and turns that run no code of a handler. *)
Definition keeps_going (e : event) : bool :=
  match e with
  | DataResolved _ true (Returns p) => negb (Nat.eqb (len p) 0)
  | DataResolved _ _ _ => false
  | SendResolved _ _ | AcceptResolved _ => true
  end.

Definition accept_ok (e : event) : bool :=
  match e with AcceptResolved true => true | _ => false end.

Definition accept_failed (e : event) : bool :=
  match e with AcceptResolved false => true | _ => false end.

(** The connections for which [new connection] was called, in order. *)
Definition news (l : list op) : list nat :=
  omap (fun o => match o with ONew c => Some c | _ => None end) l.

(** The numbers printed, in order. *)
Definition prints (l : list op) : list nat :=
  omap (fun o => match o with OPrint n => Some n | _ => None end) l.

(** The packets passed to [send] on any connection, in order. *)
Definition all_sends (l : list op) : list packet :=
  omap (fun o => match o with OSend _ p => Some p | _ => None end) l.


(** How often [close_write] was called on [c]. *)
Definition closes_on (c : conn_id) (l : list op) : nat :=
  length (List.filter (fun o => match o with
                                | OCloseWrite c' => Nat.eqb c' c
                                | _ => false
                                end) l).

(** A second client connects while the first is still open; both send. *)
Definition two_clients : list event :=
  [AcceptResolved true; DataResolved 0 true (Returns ping);
   AcceptResolved true; DataResolved 1 true (Returns [Byte.x68; Byte.x69]);
   SendResolved 0 true; DataResolved 0 true (Returns [])].

(** The calls one turn of the reactor adds to the log. *)
Definition turn_ops (e : event) (w : world) : list op :=
  match e with
  | AcceptResolved true =>
      [ONew (delivered (_listener w));
       OWaitForData (delivered (_listener w)); OAccept]
  | DataResolved c true (Returns p) =>
      if Nat.eqb (len p) 0 then [ORead c p; OCloseWrite c] else echo_turn c p
  | AcceptResolved false | DataResolved _ _ _ | SendResolved _ _ => []
  end.

(** The calls of the accept loop itself, in order. *)
Definition accept_view (l : list op) : list op :=
  List.filter (fun o => match o with OAccept | ONew _ => true | _ => false end) l.

(** The accept loop's calls for the first [n] connections. *)
Definition accept_rounds (n : nat) : list op :=
  flat_map (fun c => [ONew c; OAccept]) (seq 0 n).

(** The packet a turn hands to the handler for echoing, if any. *)
Definition payload (e : event) : option packet :=
  match e with
  | DataResolved _ true (Returns p) =>
      if Nat.eqb (len p) 0 then None else Some p
  | _ => None
  end.

(** * Proofs *)

(** ** [step] computed *)

Lemma step_accept_failed w n :
  accepts (_listener w) = S n ->
  step (AcceptResolved false) w =
    Some (with_listener (set_accepts n (_listener w)) w).
Proof. intros H. unfold step. rewrite H. reflexivity. Qed.

Lemma step_accept_ready w n :
  accepts (_listener w) = S n ->
  step (AcceptResolved true) w =
    Some {| _listener := {| port := port (_listener w); accepts := S n;
                            delivered := S (delivered (_listener w)) |};
            heap := <[delivered (_listener w) := set_data_waits 1 fresh]> (heap w);
            log := log w ++ [ONew (delivered (_listener w));
                             OWaitForData (delivered (_listener w)); OAccept] |}.
Proof.
  intros H. unfold step. rewrite H. cbn.
  unfold void, tcp_test_run_lambda, bind, new_connection, connection_run,
    wait_for_data, tcp_test_run, accept, emit, on_connection, bind,
    with_listener, with_log, with_heap; cbn.
  rewrite alter_insert_eq, <- !app_assoc.
  reflexivity.
Qed.

Lemma step_data w c k n ok rd :
  heap w !! c = Some k ->
  data_waits (tcp_conn k) = S n ->
  step (DataResolved c ok rd) w =
    Some (with_log (log w ++ snd (data_effect c n k ok rd))
            (with_heap (<[c := fst (data_effect c n k ok rd)]> (heap w)) w)).
Proof.
  intros Hk Hn. unfold step. rewrite Hk, Hn. f_equal.
  destruct ok, rd as [p|]; cbn;
    try (unfold with_log, with_heap; cbn; rewrite app_nil_r; reflexivity).
  unfold void, connection_run_lambda, bind, read, emit, ret; cbn.
  destruct (Nat.eqb (len p) 0) eqn:Hp; cbn.
  - unfold close_write, bind, emit, on_connection, with_log, with_heap; cbn.
    rewrite alter_insert_eq, <- app_assoc. reflexivity.
  - unfold print, send, connection_run, wait_for_data, bind, emit,
      on_connection, with_log, with_heap; cbn.
    rewrite !alter_insert_eq, <- !app_assoc. reflexivity.
Qed.

Lemma step_send w c k p rest ok :
  heap w !! c = Some k ->
  unresolved (tcp_conn k) = p :: rest ->
  step (SendResolved c ok) w =
    Some (with_heap (<[c := set_unresolved rest k]> (heap w)) w).
Proof. intros Hk Hu. unfold step. rewrite Hk, Hu. reflexivity. Qed.

Lemma step_turn e w w' : step e w = Some w' <-> turn w e w'.
Proof.
  split.
  - destruct e as [ok|c ok rd|c ok]; intros H.
    + destruct (accepts (_listener w)) as [|n] eqn:Hn;
        [unfold step in H; rewrite Hn in H; discriminate|].
      destruct ok.
      * rewrite (step_accept_ready w n Hn) in H.
        injection H as <-. by constructor.
      * rewrite (step_accept_failed w n Hn) in H.
        injection H as <-. by constructor.
    + destruct (heap w !! c) as [k|] eqn:Hk;
        [|unfold step in H; rewrite Hk in H; discriminate].
      destruct (data_waits (tcp_conn k)) as [|n] eqn:Hn;
        [unfold step in H; rewrite Hk, Hn in H; discriminate|].
      rewrite (step_data w c k n ok rd Hk Hn) in H.
      injection H as <-. by constructor.
    + destruct (heap w !! c) as [k|] eqn:Hk;
        [|unfold step in H; rewrite Hk in H; discriminate].
      destruct (unresolved (tcp_conn k)) as [|p rest] eqn:Hu;
        [unfold step in H; rewrite Hk, Hu in H; discriminate|].
      rewrite (step_send w c k p rest ok Hk Hu) in H.
      injection H as <-. by econstructor.
  - intros [n Hn|n Hn|c k n ok rd Hk Hn|c k p rest ok Hk Hu].
    + by apply step_accept_failed.
    + by apply step_accept_ready.
    + by apply step_data.
    + by eapply step_send.
Qed.

Lemma run_app es1 es2 w :
  run (es1 ++ es2) w = match run es1 w with
                       | Some w1 => run es2 w1
                       | None => None
                       end.
Proof.
  revert w. induction es1 as [|e es1 IH]; intros w; cbn; [done|].
  destruct (step e w); [apply IH | done].
Qed.

Lemma run_cons e es w w' :
  run (e :: es) w = Some w' <->
  exists w1, step e w = Some w1 /\ run es w1 = Some w'.
Proof.
  cbn. destruct (step e w) as [w1|]; split.
  - eauto.
  - by intros (w0 & [= <-] & H).
  - discriminate.
  - by intros (w0 & H & _).
Qed.

(** ** Facts about the log projections *)

Lemma ops_on_app c l1 l2 : ops_on c (l1 ++ l2) = ops_on c l1 ++ ops_on c l2.
Proof. apply List.filter_app. Qed.

Lemma sends_on_app c l1 l2 :
  sends_on c (l1 ++ l2) = sends_on c l1 ++ sends_on c l2.
Proof. apply omap_app. Qed.

Lemma reads_on_app c l1 l2 :
  reads_on c (l1 ++ l2) = reads_on c l1 ++ reads_on c l2.
Proof. apply omap_app. Qed.

Lemma sends_on_ops_on c l : sends_on c (ops_on c l) = sends_on c l.
Proof.
  induction l as [|o l IH]; [done|].
  destruct o as [q| |c'|c'|c' p|n|c' p|c']; cbn; try exact IH;
    destruct (Nat.eqb c' c) eqn:E; cbn; rewrite ?E; cbn;
    first [exact IH | f_equal; exact IH].
Qed.

Lemma reads_on_ops_on c l : reads_on c (ops_on c l) = reads_on c l.
Proof.
  induction l as [|o l IH]; [done|].
  destruct o as [q| |c'|c'|c' p|n|c' p|c']; cbn; try exact IH;
    destruct (Nat.eqb c' c) eqn:E; cbn; rewrite ?E; cbn;
    first [exact IH | f_equal; exact IH].
Qed.

Lemma echo_cycles_app c ps qs :
  echo_cycles c (ps ++ qs) = echo_cycles c ps ++ echo_cycles c qs.
Proof.
  induction ps as [|p ps IH]; cbn; [done|]. by rewrite IH.
Qed.

Lemma sends_on_echo_cycles c ps : sends_on c (echo_cycles c ps) = ps.
Proof.
  induction ps as [|p ps IH]; cbn; [done|].
  rewrite Nat.eqb_refl. cbn. f_equal. exact IH.
Qed.

Lemma reads_on_echo_cycles c ps : reads_on c (echo_cycles c ps) = ps.
Proof.
  induction ps as [|p ps IH]; cbn; [done|].
  rewrite Nat.eqb_refl. cbn. f_equal. exact IH.
Qed.

Lemma len_0_nil (p : packet) : Nat.eqb (len p) 0 = true -> p = [].
Proof. destruct p; [done | discriminate]. Qed.

Lemma len_pos_not_nil (p : packet) : Nat.eqb (len p) 0 = false <-> p <> [].
Proof. destruct p; cbn; split; congruence. Qed.

(** The calls a [wait_for_data] resolution adds are all on its own
    connection, or on none. *)
Lemma data_effect_ops_other c c' n k ok rd :
  c <> c' -> ops_on c' (snd (data_effect c n k ok rd)) = [].
Proof.
  intros Hne. apply Nat.eqb_neq in Hne.
  destruct ok, rd as [p|]; cbn; try done.
  destruct (Nat.eqb (len p) 0); cbn; rewrite Hne; reflexivity.
Qed.

Lemma data_effect_no_accept c n k ok rd :
  List.filter is_accept (snd (data_effect c n k ok rd)) = [].
Proof.
  destruct ok, rd as [p|]; cbn; try done.
  by destruct (Nat.eqb (len p) 0).
Qed.

(** ** The invariant holds in every reachable state *)

Lemma inv_init : inv init.
Proof.
  split; [cbn; lia|]. split.
  - intros c Hc. cbn in Hc. lia.
  - intros c _. split; [apply lookup_empty | reflexivity].
Qed.

Lemma conn_ok_data c k l ps fin ph n ok rd :
  conn_ok c k l ps fin ph ->
  data_waits (tcp_conn k) = S n ->
  exists ps' ph',
    conn_ok c (fst (data_effect c n k ok rd))
      (l ++ snd (data_effect c n k ok rd)) ps' fin ph'.
Proof.
  intros (Hne & Hps & Hw & Hc & Hops) Hn.
  assert (ph = Suspended /\ n = 0) as [-> ->].
  { rewrite Hw in Hn. destruct ph; cbn in Hn; split; congruence. }
  cbn in Hc, Hops.
  assert (Hquiet : conn_ok c (set_data_waits 0 k) (l ++ []) ps fin Abandoned).
  { rewrite app_nil_r. by repeat split. }
  destruct ok, rd as [p|]; cbn -[ops_on]; try by eauto.
  destruct (Nat.eqb (len p) 0) eqn:Hp; cbn -[ops_on].
  - apply len_0_nil in Hp as ->. exists ps, Closed.
    repeat split; try done.
    rewrite ops_on_app, Hops. cbn. rewrite Nat.eqb_refl.
    by rewrite <- app_assoc.
  - apply len_pos_not_nil in Hp. exists (ps ++ [p]), Suspended.
    repeat split; cbn.
    + apply Forall_app; split; [done | by constructor].
    + by rewrite Hps, <- app_assoc.
    + done.
    + rewrite ops_on_app, Hops, echo_cycles_app. cbn. rewrite Nat.eqb_refl.
      by rewrite <- !app_assoc.
Qed.

Lemma inv_step e w w' : inv w -> step e w = Some w' -> inv w'.
Proof.
  intros (Hacc & Hsome & Hnone) Hs. apply step_turn in Hs.
  destruct Hs as [n Hn|n Hn|c k n ok rd Hk Hn|c k p rest ok Hk Hu].
  - split; [cbn; lia|]. split; [exact Hsome | exact Hnone].
  - set (d := delivered (_listener w)) in *.
    assert (Hd : forall c, c <> d -> ops_on c [ONew d; OWaitForData d; OAccept] = []).
    { intros c Hc. cbn. by rewrite (proj2 (Nat.eqb_neq d c)). }
    split; [cbn; lia|]. cbn -[ops_on]. split.
    + intros c Hc. unfold conn_ok. rewrite ops_on_app.
      destruct (decide (c = d)) as [->|Hne].
      * exists (set_data_waits 1 fresh), [], [], Suspended.
        rewrite lookup_insert_eq.
        rewrite (proj2 (Hnone d (Nat.le_refl d))).
        repeat split; try done. cbn. by rewrite Nat.eqb_refl.
      * destruct (Hsome c ltac:(lia))
          as (k & ps & fin & ph & Hk & Hne' & Hps & Hw & Hc' & Hops).
        exists k, ps, fin, ph. rewrite lookup_insert_ne by done.
        repeat split; try done. by rewrite Hd, app_nil_r.
    + intros c Hc. destruct (Hnone c ltac:(lia)) as [Hk Hops].
      rewrite lookup_insert_ne by lia. split; [done|].
      by rewrite ops_on_app, Hops, Hd by lia.
  - assert (Hlt : c < delivered (_listener w)).
    { destruct (decide (c < delivered (_listener w))) as [|Hge]; [done|].
      destruct (Hnone c ltac:(lia)) as [E _]. congruence. }
    split; [exact Hacc|]. cbn -[ops_on data_effect]. split.
    + intros c' Hc'.
      destruct (Hsome c' Hc') as (k' & ps & fin & ph & Hk' & Hok).
      destruct (decide (c = c')) as [<-|Hne].
      * assert (k' = k) as -> by congruence.
        destruct (conn_ok_data c k (log w) ps fin ph n ok rd Hok Hn)
          as (ps' & ph' & Hok').
        eexists _, ps', fin, ph'. by rewrite lookup_insert_eq.
      * exists k', ps, fin, ph. rewrite lookup_insert_ne by done.
        destruct Hok as (? & ? & ? & ? & Hops).
        repeat split; try done.
        by rewrite ops_on_app, data_effect_ops_other, app_nil_r.
    + intros c' Hc'. destruct (Hnone c' Hc') as [Hk' Hops].
      rewrite lookup_insert_ne by lia. split; [done|].
      by rewrite ops_on_app, data_effect_ops_other, app_nil_r by lia.
  - assert (Hlt : c < delivered (_listener w)).
    { destruct (decide (c < delivered (_listener w))) as [|Hge]; [done|].
      destruct (Hnone c ltac:(lia)) as [E _]. congruence. }
    split; [exact Hacc|]. cbn -[ops_on]. split.
    + intros c' Hc'.
      destruct (Hsome c' Hc') as (k' & ps & fin & ph & Hk' & Hok).
      destruct (decide (c = c')) as [<-|Hne].
      * assert (k' = k) as -> by congruence.
        destruct Hok as (? & Hps & ? & ? & ?).
        exists (set_unresolved rest k), ps, (fin ++ [p]), ph.
        rewrite lookup_insert_eq. repeat split; try done.
        cbn. by rewrite Hps, Hu, <- app_assoc.
      * exists k', ps, fin, ph. by rewrite lookup_insert_ne.
    + intros c' Hc'. destruct (Hnone c' Hc') as [Hk' Hops].
      by rewrite lookup_insert_ne by lia.
Qed.

Lemma inv_run es w w' : inv w -> run es w = Some w' -> inv w'.
Proof.
  revert w. induction es as [|e es IH]; intros w Hi Hr; cbn in Hr.
  - by injection Hr as <-.
  - destruct (step e w) as [w1|] eqn:Hs; [|discriminate].
    eapply IH; [|exact Hr]. by eapply inv_step.
Qed.

Lemma inv_reachable es w : run es init = Some w -> inv w.
Proof. apply inv_run, inv_init. Qed.

(** In a reachable state, an allocated connection object has its record of
    calls. *)
Lemma inv_lookup w c k :
  inv w -> heap w !! c = Some k ->
  exists ps fin ph, conn_ok c k (log w) ps fin ph.
Proof.
  intros (_ & Hsome & Hnone) Hk.
  destruct (decide (c < delivered (_listener w))) as [Hlt|Hge].
  - destruct (Hsome c Hlt) as (k' & ps & fin & ph & Hk' & Hok).
    assert (k' = k) as -> by congruence. eauto.
  - destruct (Hnone c ltac:(lia)) as [E _]. congruence.
Qed.

(** ** Turns that leave a connection or the listener alone *)

(** A handler that is not suspended on [wait_for_data] makes no further
    call, and no turn of the reactor frees or revives it. *)
Lemma quiet_step c k e w w' :
  inv w ->
  heap w !! c = Some k ->
  data_waits (tcp_conn k) = 0 ->
  step e w = Some w' ->
  ops_on c (log w') = ops_on c (log w) /\
  exists k', heap w' !! c = Some k' /\
    data_waits (tcp_conn k') = 0 /\
    write_closed (tcp_conn k') = write_closed (tcp_conn k).
Proof.
  intros (_ & _ & Hnone) Hk Hw Hs. apply step_turn in Hs.
  destruct Hs as [n Hn|n Hn|c1 k1 n ok rd Hk1 Hn|c1 k1 p rest ok Hk1 Hu];
    cbn -[ops_on data_effect].
  - eauto.
  - assert (Hne : delivered (_listener w) <> c).
    { intros <-. destruct (Hnone _ (Nat.le_refl _)) as [E _]. congruence. }
    rewrite ops_on_app, lookup_insert_ne by done. split; [|eauto].
    cbn. by rewrite (proj2 (Nat.eqb_neq _ _) Hne), app_nil_r.
  - assert (Hne : c1 <> c) by (intros ->; congruence).
    rewrite ops_on_app, data_effect_ops_other, app_nil_r by done.
    rewrite lookup_insert_ne by done. eauto.
  - split; [done|]. destruct (decide (c1 = c)) as [->|Hne].
    + rewrite lookup_insert_eq. assert (k1 = k) as -> by congruence.
      eexists; split; [done|]. by cbn.
    + rewrite lookup_insert_ne by done. eauto.
Qed.

Lemma quiet_run c es : forall w w' k,
  inv w ->
  heap w !! c = Some k ->
  data_waits (tcp_conn k) = 0 ->
  run es w = Some w' ->
  ops_on c (log w') = ops_on c (log w) /\
  exists k', heap w' !! c = Some k' /\
    data_waits (tcp_conn k') = 0 /\
    write_closed (tcp_conn k') = write_closed (tcp_conn k).
Proof.
  induction es as [|e es IH]; intros w w' k Hi Hk Hw Hr; cbn in Hr.
  - injection Hr as <-. eauto.
  - destruct (step e w) as [w1|] eqn:Hs; [|discriminate].
    destruct (quiet_step c k e w w1 Hi Hk Hw Hs) as (Hops & k1 & Hk1 & Hw1 & Hc1).
    destruct (IH w1 w' k1 (inv_step _ _ _ Hi Hs) Hk1 Hw1 Hr)
      as (Hops' & k' & Hk' & Hw' & Hc').
    split; [congruence|]. exists k'. repeat split; congruence.
Qed.

(** No turn of the reactor removes a connection object. *)
Lemma step_keeps_objects e w w' c :
  step e w = Some w' -> is_Some (heap w !! c) -> is_Some (heap w' !! c).
Proof.
  intros Hs Hc. apply step_turn in Hs.
  destruct Hs as [n Hn|n Hn|c1 k1 n ok rd Hk1 Hn|c1 k1 p rest ok Hk1 Hu]; cbn;
    try done; apply lookup_insert_is_Some'; by right.
Qed.

Lemma run_keeps_objects es : forall w w' c,
  run es w = Some w' -> is_Some (heap w !! c) -> is_Some (heap w' !! c).
Proof.
  induction es as [|e es IH]; intros w w' c Hr Hc; cbn in Hr.
  - by injection Hr as <-.
  - destruct (step e w) as [w1|] eqn:Hs; [|discriminate].
    eapply IH; [exact Hr|]. by eapply step_keeps_objects.
Qed.

(** Once no [accept()] is outstanding, none is issued again and the set of
    connection objects stays as it is. *)
Lemma stopped_step e w w' :
  accepts (_listener w) = 0 ->
  step e w = Some w' ->
  _listener w' = _listener w /\
  dom (heap w') = dom (heap w) /\
  accepts_issued (log w') = accepts_issued (log w) /\
  forall ok, e <> AcceptResolved ok.
Proof.
  intros Hacc Hs. apply step_turn in Hs.
  destruct Hs as [n Hn|n Hn|c1 k1 n ok rd Hk1 Hn|c1 k1 p rest ok Hk1 Hu];
    try congruence; cbn -[data_effect].
  - repeat split; try done.
    + by apply dom_insert_lookup_L.
    + unfold accepts_issued. by rewrite List.filter_app, data_effect_no_accept, app_nil_r.
  - repeat split; try done. by apply dom_insert_lookup_L.
Qed.

Lemma stopped_run es : forall w w',
  accepts (_listener w) = 0 ->
  run es w = Some w' ->
  _listener w' = _listener w /\
  dom (heap w') = dom (heap w) /\
  accepts_issued (log w') = accepts_issued (log w) /\
  forall ok, AcceptResolved ok ∉ es.
Proof.
  induction es as [|e es IH]; intros w w' Hacc Hr; cbn in Hr.
  - injection Hr as <-. repeat split; try done. intros ok H. by inversion H.
  - destruct (step e w) as [w1|] eqn:Hs; [|discriminate].
    destruct (stopped_step e w w1 Hacc Hs) as (Hl & Hd & Ha & He).
    destruct (IH w1 w' ltac:(congruence) Hr) as (Hl' & Hd' & Ha' & He').
    repeat split; try congruence.
    intros ok [H|H]%elem_of_cons; [by eapply He | by eapply He'].
Qed.

(** A turn on connection [c] touches neither the listener nor any other
    connection object. *)
Lemma data_step_frame c ok rd w w' :
  step (DataResolved c ok rd) w = Some w' ->
  _listener w' = _listener w /\
  forall c', c' <> c -> heap w' !! c' = heap w !! c'.
Proof.
  intros Hs. apply step_turn in Hs. inversion Hs; subst.
  split; [done|]. intros c' Hne. cbn -[data_effect].
  by rewrite lookup_insert_ne.
Qed.

Lemma send_step_frame c ok w w' :
  step (SendResolved c ok) w = Some w' ->
  _listener w' = _listener w /\ log w' = log w /\
  forall c', c' <> c -> heap w' !! c' = heap w !! c'.
Proof.
  intros Hs. apply step_turn in Hs. inversion Hs; subst.
  repeat split. intros c' Hne. cbn. by rewrite lookup_insert_ne.
Qed.

Lemma filter_nonempty (ps : list packet) :
  Forall (fun p : packet => p <> []) ps ->
  filter (fun p : packet => len p <> 0) ps = ps.
Proof.
  induction 1 as [|p ps Hp _ IH]; [done|].
  rewrite filter_cons_True by (by destruct p). by rewrite IH.
Qed.

(** * The properties of the echo service *)

(** C1 (echo fidelity).  In every execution and on every connection, the
    packets the handler has passed to [send] are exactly the non-empty
    packets its [read]s returned: the same bytes, in the same order, none
    changed, cut or padded, whatever they contain. *)
Theorem echo_fidelity es w c :
  run es init = Some w ->
  sends_on c (log w) = filter (fun p : packet => len p <> 0) (reads_on c (log w)).
Proof.
  intros Hr. destruct (inv_reachable es w Hr) as (_ & Hsome & Hnone).
  rewrite <- sends_on_ops_on, <- reads_on_ops_on.
  destruct (decide (c < delivered (_listener w))) as [Hlt|Hge].
  - destruct (Hsome c Hlt) as (k & ps & fin & ph & _ & Hne & _ & _ & _ & ->).
    rewrite sends_on_app, reads_on_app, sends_on_echo_cycles,
      reads_on_echo_cycles, filter_app, filter_nonempty by done.
    destruct ph; cbn; by rewrite ?Nat.eqb_refl.
  - destruct (Hnone c ltac:(lia)) as [_ ->]. reflexivity.
Qed.

Lemma echo_fidelity_witness :
  run (one_ping ++ [DataResolved 0 true (Returns [])]) init
    = Some (after (one_ping ++ [DataResolved 0 true (Returns [])])) /\
  sends_on 0 (log (after (one_ping ++ [DataResolved 0 true (Returns [])])))
    = filter (fun p : packet => len p <> 0)
        (reads_on 0 (log (after (one_ping ++ [DataResolved 0 true (Returns [])])))).
Proof.
  assert (Hr : run (one_ping ++ [DataResolved 0 true (Returns [])]) init
               = Some (after (one_ping ++ [DataResolved 0 true (Returns [])])))
    by (vm_compute; reflexivity).
  exact (conj Hr (echo_fidelity _ _ 0 Hr)).
Defined.

(** C2 (termination on stream end).  When a read on [c] returns a packet
    of length zero, the handler calls [close_write] on [c], and whatever the
    reactor does afterwards, that [read] and that [close_write] stay the
    last calls ever made on [c]: no further [wait_for_data], [read] or
    [send]. *)
Theorem eof_closes_and_stops es1 w1 c p es2 w :
  run es1 init = Some w1 ->
  len p = 0 ->
  run (DataResolved c true (Returns p) :: es2) w1 = Some w ->
  ops_on c (log w) = ops_on c (log w1) ++ [ORead c p; OCloseWrite c] /\
  exists k, heap w !! c = Some k /\
    write_closed (tcp_conn k) = true /\ data_waits (tcp_conn k) = 0.
Proof.
  intros Hr1 Hp Hr. apply run_cons in Hr as (w2 & Hs & Hr2).
  pose proof (inv_reachable es1 w1 Hr1) as Hi1.
  pose proof (inv_step _ _ _ Hi1 Hs) as Hi2.
  apply step_turn in Hs. inversion Hs as [| |c0 k n ok rd Hk Hn|]; subst.
  destruct (inv_lookup w1 c k Hi1 Hk) as (ps & fin & ph & _ & _ & Hw & _ & _).
  assert (n = 0) as -> by (destruct ph; cbn in Hw; lia).
  assert (E : data_effect c 0 k true (Returns p) =
              (set_write_closed true (set_data_waits 0 k),
               [ORead c p; OCloseWrite c])).
  { unfold data_effect. by rewrite Hp. }
  rewrite E in Hr2, Hi2. cbn [fst snd] in Hr2, Hi2.
  edestruct (quiet_run c es2) as (Hops & k' & Hk' & Hw' & Hc');
    [exact Hi2 | apply lookup_insert_eq | reflexivity | exact Hr2 |].
  split.
  - rewrite Hops. cbn -[ops_on]. rewrite ops_on_app. cbn.
    by rewrite Nat.eqb_refl.
  - eauto.
Qed.

Lemma eof_closes_and_stops_witness :
  ops_on 0 (log (after (one_ping ++ [DataResolved 0 true (Returns []);
                                     SendResolved 0 true; AcceptResolved true])))
    = ops_on 0 (log (after one_ping)) ++ [ORead 0 []; OCloseWrite 0] /\
  exists k,
    heap (after (one_ping ++ [DataResolved 0 true (Returns []);
                              SendResolved 0 true; AcceptResolved true])) !! 0
      = Some k /\
    write_closed (tcp_conn k) = true /\ data_waits (tcp_conn k) = 0.
Proof.
  exact (eof_closes_and_stops one_ping (after one_ping) 0 []
           [SendResolved 0 true; AcceptResolved true]
           (after (one_ping ++ [DataResolved 0 true (Returns []);
                                SendResolved 0 true; AcceptResolved true]))
           ltac:(vm_compute; reflexivity) eq_refl
           ltac:(vm_compute; reflexivity)).
Defined.

(** C9 (two echoes for two equal payloads).  When the same non-empty packet
    [B] arrives twice in a row on a connection whose handler is waiting for
    data, each arrival is read and echoed on its own: the calls of one
    read-echo round are made twice, and [B], [B] is what is sent. *)
Theorem same_payload_twice es w c k B :
  run es init = Some w ->
  heap w !! c = Some k ->
  data_waits (tcp_conn k) = 1 ->
  B <> [] ->
  exists w',
    run [DataResolved c true (Returns B); DataResolved c true (Returns B)] w
      = Some w' /\
    log w' = log w ++ echo_turn c B ++ echo_turn c B /\
    sends_on c (log w') = sends_on c (log w) ++ [B; B].
Proof.
  intros _ Hk Hw HB. apply len_pos_not_nil in HB.
  assert (E : forall k0, data_effect c 0 k0 true (Returns B) =
     (set_data_waits 1 (set_unresolved (unresolved (tcp_conn k0) ++ [B]) k0),
      echo_turn c B)).
  { intros k0. unfold data_effect. by rewrite HB. }
  eexists. split.
  - cbn [run]. rewrite (step_data w c k 0 true (Returns B) Hk Hw), E.
    cbn [fst snd].
    erewrite step_data; [|apply lookup_insert_eq|reflexivity].
    rewrite E. reflexivity.
  - cbn [log with_log with_heap fst snd]. rewrite <- app_assoc. split; [done|].
    rewrite !sends_on_app. cbn. by rewrite Nat.eqb_refl.
Qed.

Lemma same_payload_twice_witness :
  exists w',
    run [DataResolved 0 true (Returns ping); DataResolved 0 true (Returns ping)]
        (after [AcceptResolved true]) = Some w' /\
    log w' = log (after [AcceptResolved true])
               ++ echo_turn 0 ping ++ echo_turn 0 ping /\
    sends_on 0 (log w') = sends_on 0 (log (after [AcceptResolved true]))
                            ++ [ping; ping].
Proof.
  exact (same_payload_twice [AcceptResolved true] (after [AcceptResolved true])
           0 (set_data_waits 1 fresh) ping
           ltac:(vm_compute; reflexivity) ltac:(vm_compute; reflexivity)
           eq_refl ltac:(discriminate)).
Defined.

(** C10 (no empty write).  Every [send] the program ever issues, on any
    connection, carries a packet of positive length: a zero-length read goes
    to [close_write] and returns before [send]. *)
Theorem never_sends_empty es w c p :
  run es init = Some w ->
  OSend c p ∈ log w ->
  0 < len p.
Proof.
  intros Hr Hin.
  assert (Hs : p ∈ sends_on c (log w)).
  { apply list_elem_of_omap. exists (OSend c p). split; [done|].
    by rewrite Nat.eqb_refl. }
  destruct (inv_reachable es w Hr) as (_ & Hsome & Hnone).
  rewrite <- sends_on_ops_on in Hs.
  destruct (decide (c < delivered (_listener w))) as [Hlt|Hge].
  - destruct (Hsome c Hlt) as (k & ps & fin & ph & _ & Hne & _ & _ & _ & Hops).
    rewrite Hops, sends_on_app, sends_on_echo_cycles in Hs.
    assert (Hp : p ∈ ps).
    { apply elem_of_app in Hs as [Hs|Hs]; [done|].
      destruct ph; cbn in Hs; by apply elem_of_nil in Hs. }
    rewrite Forall_forall in Hne. specialize (Hne p Hp).
    destruct p; [done | cbn; lia].
  - destruct (Hnone c ltac:(lia)) as [_ E]. rewrite E in Hs.
    by apply elem_of_nil in Hs.
Qed.

Lemma never_sends_empty_witness : 0 < len ping.
Proof.
  exact (never_sends_empty one_ping (after one_ping) 0 ping
           ltac:(vm_compute; reflexivity)
           ltac:(apply (list_elem_of_lookup_2 _ 7); vm_compute; reflexivity)).
Defined.

(** C3 (accepting without waiting).  Every successful accept makes a new
    handler object for the accepted connection, starts it (it is left
    suspended on its first [wait_for_data], not run to its end) and issues
    the next [accept()], all in the same turn and without touching any
    existing handler.  Accepting needs no handler to have finished: [n]
    accepts in a row leave [n] handlers, all still suspended, and the
    listener armed. *)
Theorem accept_spawns_and_rearms :
  (forall es w w',
     run es init = Some w ->
     step (AcceptResolved true) w = Some w' ->
     log w' = log w ++ [ONew (delivered (_listener w));
                        OWaitForData (delivered (_listener w)); OAccept] /\
     heap w !! delivered (_listener w) = None /\
     heap w' = <[delivered (_listener w) := set_data_waits 1 fresh]> (heap w) /\
     accepts (_listener w') = 1 /\
     delivered (_listener w') = S (delivered (_listener w))) /\
  (forall n, exists w,
     run (replicate n (AcceptResolved true)) init = Some w /\
     accepts (_listener w) = 1 /\
     delivered (_listener w) = n /\
     forall c, c < n -> heap w !! c = Some (set_data_waits 1 fresh)).
Proof.
  split.
  - intros es w w' Hr Hs.
    destruct (inv_reachable es w Hr) as (Hacc & _ & Hnone).
    apply step_turn in Hs. inversion Hs as [|n Hn| |]; subst. cbn.
    repeat split; try done.
    + apply Hnone. lia.
    + lia.
  - induction n as [|n (w & Hr & Hacc & Hd & Hh)].
    + exists init. repeat split. intros c Hc. lia.
    + eexists. rewrite replicate_S_end, run_app, Hr. cbn [run].
      rewrite (step_accept_ready w 0 Hacc). split; [reflexivity|]. cbn.
      repeat split; [congruence|]. intros c Hc. rewrite Hd.
      destruct (decide (c = n)) as [->|Hne].
      * apply lookup_insert_eq.
      * rewrite lookup_insert_ne by done. apply Hh. lia.
Qed.

Lemma accept_spawns_and_rearms_witness :
  log (after (one_ping ++ [AcceptResolved true]))
    = log (after one_ping) ++ [ONew 1; OWaitForData 1; OAccept] /\
  heap (after one_ping) !! 1 = None /\
  heap (after (one_ping ++ [AcceptResolved true]))
    = <[1 := set_data_waits 1 fresh]> (heap (after one_ping)) /\
  accepts (_listener (after (one_ping ++ [AcceptResolved true]))) = 1 /\
  delivered (_listener (after (one_ping ++ [AcceptResolved true]))) = 2.
Proof.
  pose proof (proj1 accept_spawns_and_rearms one_ping (after one_ping)
                (after (one_ping ++ [AcceptResolved true]))
                ltac:(vm_compute; reflexivity)
                ltac:(vm_compute; reflexivity)) as H.
  vm_compute in H |- *. exact H.
Defined.

(** C5 (program order within a connection).  The calls made on a
    connection are always a sequence of complete rounds
    [wait_for_data; read p; send p] for non-empty [p], followed by nothing,
    by a [wait_for_data] alone, or by the closing
    [wait_for_data; read []; close_write]: a [send] comes right after the
    [read] that returned its packet, and the next [wait_for_data] right
    after that [send].  The handler does not wait for the write: a read of a
    non-empty packet goes through whatever sends are still unresolved, and
    it leaves the new send unresolved with the next [wait_for_data] already
    outstanding. *)
Theorem handler_program_order es w c :
  run es init = Some w ->
  (exists ps tail,
     Forall (fun p : packet => p <> []) ps /\
     ops_on c (log w) = echo_cycles c ps ++ tail /\
     (tail = [] \/ tail = [OWaitForData c] \/
      tail = [OWaitForData c; ORead c []; OCloseWrite c])) /\
  (forall k p,
     heap w !! c = Some k ->
     data_waits (tcp_conn k) = 1 ->
     p <> [] ->
     exists w' k',
       step (DataResolved c true (Returns p)) w = Some w' /\
       log w' = log w ++ echo_turn c p /\
       heap w' !! c = Some k' /\
       unresolved (tcp_conn k') = unresolved (tcp_conn k) ++ [p] /\
       data_waits (tcp_conn k') = 1).
Proof.
  intros Hr. destruct (inv_reachable es w Hr) as (_ & Hsome & Hnone). split.
  - destruct (decide (c < delivered (_listener w))) as [Hlt|Hge].
    + destruct (Hsome c Hlt) as (k & ps & fin & ph & _ & Hne & _ & _ & _ & Hops).
      exists ps, (phase_tail c ph). repeat split; try done.
      destruct ph; cbn; auto.
    + destruct (Hnone c ltac:(lia)) as [_ E].
      exists [], []. rewrite E. repeat split; auto.
  - intros k p Hk Hw Hp. apply len_pos_not_nil in Hp.
    rewrite (step_data w c k 0 true (Returns p) Hk Hw).
    unfold data_effect. rewrite Hp. cbn [fst snd].
    eexists _, _. split; [reflexivity|]. cbn.
    rewrite lookup_insert_eq. repeat split.
Qed.

Lemma handler_program_order_witness :
  (exists ps tail,
     Forall (fun p : packet => p <> []) ps /\
     ops_on 0 (log (after one_ping)) = echo_cycles 0 ps ++ tail /\
     (tail = [] \/ tail = [OWaitForData 0] \/
      tail = [OWaitForData 0; ORead 0 []; OCloseWrite 0])) /\
  (forall k p,
     heap (after one_ping) !! 0 = Some k ->
     data_waits (tcp_conn k) = 1 ->
     p <> [] ->
     exists w' k',
       step (DataResolved 0 true (Returns p)) (after one_ping) = Some w' /\
       log w' = log (after one_ping) ++ echo_turn 0 p /\
       heap w' !! 0 = Some k' /\
       unresolved (tcp_conn k') = unresolved (tcp_conn k) ++ [p] /\
       data_waits (tcp_conn k') = 1).
Proof.
  exact (handler_program_order one_ping (after one_ping) 0
           ltac:(vm_compute; reflexivity)).
Defined.

(** C6 (a failed accept ends the accept loop).  When an [accept()] future
    fails, the lambda of [tcp_test::run] is skipped, so [run()] is not called
    again: from then on no [accept()] is outstanding, none is ever issued
    again (no retry), no accept can resolve, and the set of connection
    objects never grows: no further connection gets in. *)
Theorem accept_failure_ends_loop es1 w1 es2 w :
  run es1 init = Some w1 ->
  run (AcceptResolved false :: es2) w1 = Some w ->
  accepts (_listener w) = 0 /\
  delivered (_listener w) = delivered (_listener w1) /\
  dom (heap w) = dom (heap w1) /\
  accepts_issued (log w) = accepts_issued (log w1) /\
  forall ok, AcceptResolved ok ∉ es2.
Proof.
  intros Hr1 Hr. destruct (inv_reachable es1 w1 Hr1) as (Hacc & _ & _).
  apply run_cons in Hr as (w2 & Hs & Hr2).
  apply step_turn in Hs. inversion Hs as [n Hn| | |]; subst.
  assert (n = 0) as -> by lia.
  destruct (stopped_run es2 (with_listener (set_accepts 0 (_listener w1)) w1)
              w eq_refl Hr2) as (Hl & Hd & Ha & He).
  rewrite Hl. cbn in *. by repeat split.
Qed.

Lemma accept_failure_ends_loop_witness :
  accepts (_listener (after (one_ping ++ [AcceptResolved false;
             DataResolved 0 true (Returns ping)]))) = 0 /\
  delivered (_listener (after (one_ping ++ [AcceptResolved false;
             DataResolved 0 true (Returns ping)])))
    = delivered (_listener (after one_ping)) /\
  dom (heap (after (one_ping ++ [AcceptResolved false;
             DataResolved 0 true (Returns ping)])))
    = dom (heap (after one_ping)) /\
  accepts_issued (log (after (one_ping ++ [AcceptResolved false;
             DataResolved 0 true (Returns ping)])))
    = accepts_issued (log (after one_ping)) /\
  forall ok, AcceptResolved ok ∉ [DataResolved 0 true (Returns ping)].
Proof.
  exact (accept_failure_ends_loop one_ping (after one_ping)
           [DataResolved 0 true (Returns ping)]
           (after (one_ping ++ [AcceptResolved false;
                                DataResolved 0 true (Returns ping)]))
           ltac:(vm_compute; reflexivity) ltac:(vm_compute; reflexivity)).
Defined.

(** C4, as stated, fails: after two non-empty reads on one connection with
    no send resolved in between, two writes are outstanding on it. *)
Lemma single_outstanding_write_refuted :
  ~ (forall es w c k,
       run es init = Some w ->
       heap w !! c = Some k ->
       data_waits (tcp_conn k) <= 1 /\ length (unresolved (tcp_conn k)) <= 1).
Proof.
  intros H.
  destruct (H (one_ping ++ [DataResolved 0 true (Returns ping)])
              (after (one_ping ++ [DataResolved 0 true (Returns ping)])) 0
              {| tcp_conn := {| data_waits := 1; unresolved := [ping; ping];
                                write_closed := false |} |}
              ltac:(vm_compute; reflexivity)
              ltac:(vm_compute; reflexivity)) as [_ Hw].
  cbn in Hw. lia.
Qed.

Lemma echo_rounds c B n :
  B <> [] ->
  forall w k,
    heap w !! c = Some k ->
    data_waits (tcp_conn k) = 1 ->
    exists w' k',
      run (replicate n (DataResolved c true (Returns B))) w = Some w' /\
      heap w' !! c = Some k' /\
      data_waits (tcp_conn k') = 1 /\
      unresolved (tcp_conn k') = unresolved (tcp_conn k) ++ replicate n B.
Proof.
  intros HB. apply len_pos_not_nil in HB.
  induction n as [|n IH]; intros w k Hk Hw.
  - exists w, k. by rewrite app_nil_r.
  - cbn [replicate run].
    rewrite (step_data w c k 0 true (Returns B) Hk Hw).
    unfold data_effect. rewrite HB. cbn [fst snd].
    match goal with
    | |- context [run _ ?w1] =>
        destruct (IH w1 _ (lookup_insert_eq _ _ _) eq_refl)
          as (w' & k' & Hr & Hk' & Hw' & Hu')
    end.
    exists w', k'. repeat split; try done.
    rewrite Hu'. cbn. by rewrite <- app_assoc.
Qed.

(** C4, amended.  At every point of every execution at most one
    [wait_for_data] of a connection's handler is outstanding, so its reads
    never overlap.  Its writes are not awaited: the writes outstanding on a
    connection are the latest of the sends issued on it, as many as have not
    resolved yet, and any number of them can be outstanding at once. *)
Theorem reads_serialised_writes_unbounded :
  (forall es w c k,
     run es init = Some w ->
     heap w !! c = Some k ->
     data_waits (tcp_conn k) <= 1 /\
     exists fin, sends_on c (log w) = fin ++ unresolved (tcp_conn k)) /\
  (forall n, exists es w k,
     run es init = Some w /\
     heap w !! 0 = Some k /\
     length (unresolved (tcp_conn k)) = n).
Proof.
  split.
  - intros es w c k Hr Hk.
    destruct (inv_lookup w c k (inv_reachable es w Hr) Hk)
      as (ps & fin & ph & _ & Hps & Hw & _ & Hops).
    split; [destruct ph; cbn in Hw; lia|].
    exists fin. rewrite <- sends_on_ops_on, Hops, sends_on_app,
      sends_on_echo_cycles, Hps.
    destruct ph; cbn; by rewrite app_nil_r.
  - intros n.
    destruct (echo_rounds 0 ping n ltac:(discriminate)
                (after [AcceptResolved true]) (set_data_waits 1 fresh)
                eq_refl eq_refl) as (w' & k' & Hr & Hk' & _ & Hu).
    exists (AcceptResolved true :: replicate n (DataResolved 0 true (Returns ping))),
      w', k'.
    split; [exact Hr|]. split; [exact Hk'|].
    rewrite Hu. cbn. apply length_replicate.
Qed.

Lemma reads_serialised_writes_unbounded_witness :
  data_waits (tcp_conn (set_data_waits 1 (set_unresolved [ping] fresh))) <= 1 /\
  exists fin,
    sends_on 0 (log (after one_ping))
      = fin ++ unresolved (tcp_conn (set_data_waits 1 (set_unresolved [ping] fresh))).
Proof.
  exact (proj1 reads_serialised_writes_unbounded one_ping (after one_ping) 0
           (set_data_waits 1 (set_unresolved [ping] fresh))
           ltac:(vm_compute; reflexivity) ltac:(vm_compute; reflexivity)).
Defined.

(** C7, as stated, fails: a [send] whose future resolves with an exception
    does not end the handler; it goes on to read and echo the next packet. *)
Lemma every_failure_ends_handler_refuted :
  ~ (forall es w c e w',
       run es init = Some w ->
       transport_failure c e = true ->
       step e w = Some w' ->
       handler_over c w').
Proof.
  intros H.
  specialize (H one_ping (after one_ping) 0 (SendResolved 0 false)
                (after (one_ping ++ [SendResolved 0 false]))
                ltac:(vm_compute; reflexivity) eq_refl
                ltac:(vm_compute; reflexivity)
                [DataResolved 0 true (Returns ping)]
                (after (one_ping ++ [SendResolved 0 false;
                                     DataResolved 0 true (Returns ping)]))
                ltac:(vm_compute; reflexivity)).
  vm_compute in H. discriminate.
Qed.

(** C7, amended.  A failed read round on [c] (the [wait_for_data] future
    fails, or [read] throws) ends the handler of [c] abnormally: its
    continuation is dropped, it makes no call then or ever after (no retry,
    no [close_write]), and neither the listener nor any other handler
    object is touched.  A failed write does not end it: the future of a
    [send] was discarded, so its failure is the same turn as its success; it
    makes no call and leaves the handler, the listener and all other handler
    objects as they were. *)
Theorem read_failure_ends_handler_write_failure_ignored es w c :
  run es init = Some w ->
  (forall ok rd w',
     read_failed ok rd = true ->
     step (DataResolved c ok rd) w = Some w' ->
     handler_over c w' /\
     log w' = log w /\
     _listener w' = _listener w /\
     (forall c', c' <> c -> heap w' !! c' = heap w !! c') /\
     exists k', heap w' !! c = Some k' /\
       data_waits (tcp_conn k') = 0 /\ write_closed (tcp_conn k') = false) /\
  (forall w',
     step (SendResolved c false) w = Some w' ->
     step (SendResolved c true) w = Some w' /\
     log w' = log w /\
     _listener w' = _listener w /\
     (forall c', c' <> c -> heap w' !! c' = heap w !! c') /\
     exists k k', heap w !! c = Some k /\ heap w' !! c = Some k' /\
       data_waits (tcp_conn k') = data_waits (tcp_conn k) /\
       write_closed (tcp_conn k') = write_closed (tcp_conn k)).
Proof.
  intros Hr. pose proof (inv_reachable es w Hr) as Hi. split.
  - intros ok rd w' Hf Hs.
    destruct (data_step_frame c ok rd w w' Hs) as [Hl Hfr].
    pose proof (inv_step _ _ _ Hi Hs) as Hi'.
    apply step_turn in Hs. inversion Hs as [| |c0 k n ok0 rd0 Hk Hn|]; subst.
    destruct (inv_lookup w c k Hi Hk) as (ps & fin & ph & _ & _ & Hw & Hc & _).
    assert (ph = Suspended /\ n = 0) as [-> ->].
    { destruct ph; cbn in Hw; split; congruence. }
    assert (E : data_effect c 0 k ok rd = (set_data_waits 0 k, [])).
    { by destruct ok, rd. }
    rewrite E in Hi' |- *. cbn [fst snd] in Hi' |- *.
    assert (Hk' : heap (with_log (log w ++ [])
                     (with_heap (<[c := set_data_waits 0 k]> (heap w)) w)) !! c
                  = Some (set_data_waits 0 k)) by apply lookup_insert_eq.
    split; [|split; [|split; [|split]]].
    + intros es2 w2 Hr2.
      by destruct (quiet_run c es2 _ w2 _ Hi' Hk' eq_refl Hr2) as [? _].
    + cbn. apply app_nil_r.
    + done.
    + rewrite E in Hfr. exact Hfr.
    + exists (set_data_waits 0 k). by repeat split.
  - intros w' Hs.
    destruct (send_step_frame c false w w' Hs) as (Hl & Hlog & Hfr).
    apply step_turn in Hs. inversion Hs as [| | |c0 k p rest ok Hk Hu]; subst.
    split; [by eapply step_send|]. repeat split; try done.
    exists k, (set_unresolved rest k).
    split; [done|]. split; [apply lookup_insert_eq|]. by split.
Qed.

Lemma read_failure_ends_handler_write_failure_ignored_witness :
  (forall ok rd w',
     read_failed ok rd = true ->
     step (DataResolved 0 ok rd) (after one_ping) = Some w' ->
     handler_over 0 w' /\
     log w' = log (after one_ping) /\
     _listener w' = _listener (after one_ping) /\
     (forall c', c' <> 0 -> heap w' !! c' = heap (after one_ping) !! c') /\
     exists k', heap w' !! 0 = Some k' /\
       data_waits (tcp_conn k') = 0 /\ write_closed (tcp_conn k') = false) /\
  (forall w',
     step (SendResolved 0 false) (after one_ping) = Some w' ->
     step (SendResolved 0 true) (after one_ping) = Some w' /\
     log w' = log (after one_ping) /\
     _listener w' = _listener (after one_ping) /\
     (forall c', c' <> 0 -> heap w' !! c' = heap (after one_ping) !! c') /\
     exists k k', heap (after one_ping) !! 0 = Some k /\ heap w' !! 0 = Some k' /\
       data_waits (tcp_conn k') = data_waits (tcp_conn k) /\
       write_closed (tcp_conn k') = write_closed (tcp_conn k)).
Proof.
  exact (read_failure_ends_handler_write_failure_ignored one_ping
           (after one_ping) 0 ltac:(vm_compute; reflexivity)).
Defined.

(** C8, as stated, fails: after the zero-length read the handler object is
    still there; the program has no [delete]. *)
Lemma closing_frees_handler_refuted :
  ~ (forall es w c p w',
       run es init = Some w ->
       len p = 0 ->
       step (DataResolved c true (Returns p)) w = Some w' ->
       heap w' !! c = None).
Proof.
  intros H.
  specialize (H one_ping (after one_ping) 0 []
                (after (one_ping ++ [DataResolved 0 true (Returns [])]))
                ltac:(vm_compute; reflexivity) eq_refl
                ltac:(vm_compute; reflexivity)).
  vm_compute in H. discriminate.
Qed.

(** C8, amended.  On a zero-length read the handler calls [close_write] on
    its connection and returns.  Neither the handler object nor the
    connection it owns is freed: in every later state the object is still
    allocated, with its write side closed and no continuation pending. *)
Theorem closing_leaves_object_allocated es1 w1 c p w2 :
  run es1 init = Some w1 ->
  len p = 0 ->
  step (DataResolved c true (Returns p)) w1 = Some w2 ->
  log w2 = log w1 ++ [ORead c p; OCloseWrite c] /\
  forall es2 w,
    run es2 w2 = Some w ->
    exists k, heap w !! c = Some k /\
      write_closed (tcp_conn k) = true /\ data_waits (tcp_conn k) = 0.
Proof.
  intros Hr1 Hp Hs.
  pose proof (inv_reachable es1 w1 Hr1) as Hi1.
  pose proof (inv_step _ _ _ Hi1 Hs) as Hi2.
  apply step_turn in Hs. inversion Hs as [| |c0 k n ok rd Hk Hn|]; subst.
  destruct (inv_lookup w1 c k Hi1 Hk) as (ps & fin & ph & _ & _ & Hw & _ & _).
  assert (n = 0) as -> by (destruct ph; cbn in Hw; lia).
  assert (E : data_effect c 0 k true (Returns p) =
              (set_write_closed true (set_data_waits 0 k),
               [ORead c p; OCloseWrite c])).
  { unfold data_effect. by rewrite Hp. }
  rewrite E in Hi2 |- *. cbn [fst snd] in Hi2 |- *.
  split; [reflexivity|]. intros es2 w Hr2.
  edestruct (quiet_run c es2) as (_ & k' & Hk' & Hw' & Hc');
    [exact Hi2 | apply lookup_insert_eq | reflexivity | exact Hr2 |].
  eauto.
Qed.

Lemma closing_leaves_object_allocated_witness :
  log (after (one_ping ++ [DataResolved 0 true (Returns [])]))
    = log (after one_ping) ++ [ORead 0 []; OCloseWrite 0] /\
  forall es2 w,
    run es2 (after (one_ping ++ [DataResolved 0 true (Returns [])])) = Some w ->
    exists k, heap w !! 0 = Some k /\
      write_closed (tcp_conn k) = true /\ data_waits (tcp_conn k) = 0.
Proof.
  exact (closing_leaves_object_allocated one_ping (after one_ping) 0 []
           (after (one_ping ++ [DataResolved 0 true (Returns [])]))
           ltac:(vm_compute; reflexivity) eq_refl
           ltac:(vm_compute; reflexivity)).
Defined.

(** * Further properties of the program *)

(** ** A connection on its own *)

Lemma sim_step c e w ws w' :
  inv w ->
  same_conn c w ws ->
  is_Some (heap w !! c) ->
  step e w = Some w' ->
  if event_on c e
  then exists ws', step e ws = Some ws' /\ same_conn c w' ws'
  else same_conn c w' ws.
Proof.
  intros (_ & _ & Hnone) [Hh Ho] Hc Hs. apply step_turn in Hs.
  destruct Hs as [n Hn|n Hn|c1 k1 n ok rd Hk1 Hn|c1 k1 p rest ok Hk1 Hu];
    cbn [event_on].
  - by split.
  - assert (Hne : delivered (_listener w) <> c).
    { intros <-. destruct (Hnone _ (Nat.le_refl _)) as [E _].
      rewrite E in Hc. by destruct Hc. }
    split; cbn -[ops_on].
    + by rewrite lookup_insert_ne.
    + rewrite ops_on_app, <- Ho. cbn.
      by rewrite (proj2 (Nat.eqb_neq _ _) Hne), app_nil_r.
  - destruct (Nat.eqb c1 c) eqn:E.
    + apply Nat.eqb_eq in E as ->.
      assert (Hks : heap ws !! c = Some k1) by congruence.
      eexists. split; [by apply step_data|].
      split; cbn -[ops_on data_effect].
      * by rewrite !lookup_insert_eq.
      * by rewrite !ops_on_app, Ho.
    + apply Nat.eqb_neq in E. split; cbn -[ops_on data_effect].
      * by rewrite lookup_insert_ne.
      * by rewrite ops_on_app, data_effect_ops_other, app_nil_r.
  - destruct (Nat.eqb c1 c) eqn:E.
    + apply Nat.eqb_eq in E as ->.
      assert (Hks : heap ws !! c = Some k1) by congruence.
      eexists. split; [by eapply step_send|].
      split; cbn -[ops_on]; [by rewrite !lookup_insert_eq | done].
    + apply Nat.eqb_neq in E. split; cbn -[ops_on]; [|done].
      by rewrite lookup_insert_ne.
Qed.

Lemma sim_run c es : forall w ws w',
  inv w ->
  same_conn c w ws ->
  is_Some (heap w !! c) ->
  run es w = Some w' ->
  exists ws', run (events_on c es) ws = Some ws' /\ same_conn c w' ws'.
Proof.
  induction es as [|e es IH]; intros w ws w' Hi Hsame Hc Hr; cbn in Hr.
  - injection Hr as <-. by exists ws.
  - destruct (step e w) as [w1|] eqn:Hs; [|discriminate].
    pose proof (sim_step c e w ws w1 Hi Hsame Hc Hs) as Hsim.
    pose proof (inv_step _ _ _ Hi Hs) as Hi1.
    pose proof (step_keeps_objects e w w1 c Hs Hc) as Hc1.
    cbn [events_on List.filter]. destruct (event_on c e).
    + destruct Hsim as (ws1 & Hss & Hsame1).
      destruct (IH w1 ws1 w' Hi1 Hsame1 Hc1 Hr) as (ws' & Hrs & Hsame').
      exists ws'. cbn [run]. by rewrite Hss.
    + by apply (IH w1 ws w').
Qed.

Lemma before_accept c es : forall w w',
  inv w ->
  delivered (_listener w) <= c ->
  run es w = Some w' ->
  (delivered (_listener w') <= c /\ events_on c es = []) \/
  (c < delivered (_listener w') /\
   exists ws', run (events_on c es) (solo c) = Some ws' /\ same_conn c w' ws').
Proof.
  induction es as [|e es IH]; intros w w' Hi Hd Hr; cbn in Hr.
  - injection Hr as <-. by left.
  - destruct (step e w) as [w1|] eqn:Hs; [|discriminate].
    pose proof (inv_step _ _ _ Hi Hs) as Hi1.
    destruct Hi as (_ & _ & Hnone).
    pose proof Hs as Ht. apply step_turn in Ht.
    destruct Ht as [n Hn|n Hn|c1 k1 n ok rd Hk1 Hn|c1 k1 p rest ok Hk1 Hu].
    + by apply (IH _ w' Hi1).
    + destruct (decide (delivered (_listener w) = c)) as [Hdc|Hne].
      * right.
        match type of Hr with run _ ?w1 = _ =>
          assert (Hsame : same_conn c w1 (solo c));
          [|assert (Hc1 : is_Some (heap w1 !! c))]
        end.
        { split; cbn -[ops_on].
          - by rewrite Hdc, lookup_insert_eq, lookup_singleton_eq.
          - rewrite ops_on_app, (proj2 (Hnone c Hd)), Hdc. cbn.
            by rewrite Nat.eqb_refl. }
        { cbn. rewrite Hdc, lookup_insert_eq. eauto. }
        destruct (sim_run c es _ (solo c) w' Hi1 Hsame Hc1 Hr)
          as (ws' & Hrs & Hsame').
        split; [|by exists ws'].
        pose proof (run_keeps_objects es _ w' c Hr Hc1) as Hc'.
        pose proof (inv_run es _ w' Hi1 Hr) as (_ & _ & Hnone').
        destruct (decide (c < delivered (_listener w'))) as [|Hge]; [done|].
        destruct (Hnone' c ltac:(lia)) as [E _].
        rewrite E in Hc'. by destruct Hc'.
      * apply (IH _ w' Hi1); [cbn; lia | exact Hr].
    + assert (Hne : Nat.eqb c1 c = false).
      { apply Nat.eqb_neq. intros ->.
        destruct (Hnone c Hd) as [E _]. congruence. }
      cbn [events_on List.filter event_on]. rewrite Hne.
      by apply (IH _ w' Hi1).
    + assert (Hne : Nat.eqb c1 c = false).
      { apply Nat.eqb_neq. intros ->.
        destruct (Hnone c Hd) as [E _]. congruence. }
      cbn [events_on List.filter event_on]. rewrite Hne.
      by apply (IH _ w' Hi1).
Qed.

Lemma solo_simulates es w c :
  run es init = Some w ->
  c < delivered (_listener w) ->
  exists ws, run (events_on c es) (solo c) = Some ws /\ same_conn c w ws.
Proof.
  intros Hr Hc.
  destruct (before_accept c es init w inv_init ltac:(cbn; lia) Hr)
    as [[Hd _]|[_ H]]; [lia | exact H].
Qed.

(** X1 (a connection behaves as if it were alone).  In every execution,
    the handler object of an accepted connection [c] and the calls made on
    [c] are those of a process that has [c] as its only connection and is
    given just the turns of [c]: no accept and no turn of another connection
    changes what the handler of [c] does. *)
Theorem handler_as_if_alone es w c :
  run es init = Some w ->
  c < delivered (_listener w) ->
  exists ws,
    run (events_on c es) (solo c) = Some ws /\
    heap w !! c = heap ws !! c /\
    ops_on c (log w) = ops_on c (log ws).
Proof.
  intros Hr Hc.
  destruct (solo_simulates es w c Hr Hc) as (ws & Hrs & Hsame).
  exists ws. split; [exact Hrs | exact Hsame].
Qed.

Lemma handler_as_if_alone_witness :
  exists ws,
    run (events_on 0 two_clients) (solo 0) = Some ws /\
    heap (after two_clients) !! 0 = heap ws !! 0 /\
    ops_on 0 (log (after two_clients)) = ops_on 0 (log ws).
Proof.
  exact (handler_as_if_alone two_clients (after two_clients) 0
           ltac:(vm_compute; reflexivity) ltac:(vm_compute; lia)).
Defined.

(** X2 (connections do not interfere).  Two executions that give
    connection [c] the same turns, whatever else happens in them (other
    connections, their data, their failures, further accepts), leave the
    same handler object for [c] and the same calls on [c]. *)
Theorem connections_do_not_interfere es1 es2 w1 w2 c :
  run es1 init = Some w1 ->
  run es2 init = Some w2 ->
  c < delivered (_listener w1) ->
  c < delivered (_listener w2) ->
  events_on c es1 = events_on c es2 ->
  heap w1 !! c = heap w2 !! c /\
  ops_on c (log w1) = ops_on c (log w2).
Proof.
  intros Hr1 Hr2 Hc1 Hc2 He.
  destruct (solo_simulates es1 w1 c Hr1 Hc1) as (ws1 & Hs1 & Hh1 & Ho1).
  destruct (solo_simulates es2 w2 c Hr2 Hc2) as (ws2 & Hs2 & Hh2 & Ho2).
  rewrite He in Hs1. assert (ws1 = ws2) as -> by congruence.
  split; congruence.
Qed.

Lemma connections_do_not_interfere_witness :
  heap (after two_clients) !! 0
    = heap (after (one_ping ++ [SendResolved 0 true;
                                DataResolved 0 true (Returns [])])) !! 0 /\
  ops_on 0 (log (after two_clients))
    = ops_on 0 (log (after (one_ping ++ [SendResolved 0 true;
                                         DataResolved 0 true (Returns [])]))).
Proof.
  exact (connections_do_not_interfere two_clients
           (one_ping ++ [SendResolved 0 true; DataResolved 0 true (Returns [])])
           (after two_clients)
           (after (one_ping ++ [SendResolved 0 true;
                                DataResolved 0 true (Returns [])])) 0
           ltac:(vm_compute; reflexivity) ltac:(vm_compute; reflexivity)
           ltac:(vm_compute; lia) ltac:(vm_compute; lia)
           ltac:(vm_compute; reflexivity)).
Defined.

(** ** A handler stops only on end of stream or on a failed read *)

Lemma events_on_all c es : forallb (event_on c) (events_on c es) = true.
Proof.
  induction es as [|e es IH]; [done|]. cbn.
  destruct (event_on c e) eqn:E; [cbn; by rewrite E | exact IH].
Qed.

Lemma suspended_stays c evs : forall ws ws' k,
  forallb (event_on c) evs = true ->
  forallb keeps_going evs = true ->
  heap ws !! c = Some k ->
  data_waits (tcp_conn k) = 1 ->
  write_closed (tcp_conn k) = false ->
  run evs ws = Some ws' ->
  exists k', heap ws' !! c = Some k' /\
    data_waits (tcp_conn k') = 1 /\ write_closed (tcp_conn k') = false.
Proof.
  induction evs as [|e evs IH]; intros ws ws' k Hon Hgo Hk Hw Hc Hr.
  - injection Hr as <-. eauto.
  - cbn in Hon, Hgo, Hr.
    apply andb_true_iff in Hon as [Hon1 Hon], Hgo as [Hgo1 Hgo].
    destruct (step e ws) as [ws1|] eqn:Hs; [|discriminate].
    apply step_turn in Hs.
    destruct Hs as [n Hn|n Hn|c1 k1 n ok rd Hk1 Hn|c1 k1 p rest ok Hk1 Hu];
      try discriminate; cbn in Hon1; apply Nat.eqb_eq in Hon1 as ->;
      assert (k1 = k) as -> by congruence.
    + destruct ok; [|discriminate]. destruct rd as [p|]; [|discriminate].
      cbn in Hgo1. apply negb_true_iff in Hgo1.
      assert (n = 0) as -> by lia.
      unfold data_effect in Hr. rewrite Hgo1 in Hr. cbn [fst snd] in Hr.
      eapply IH in Hr;
        [exact Hr | done | done | apply lookup_insert_eq | done | done].
    + eapply IH in Hr;
        [exact Hr | done | done | apply lookup_insert_eq | done | done].
Qed.

(** X3 (a handler stops only when told to).  As long as every
    [wait_for_data] future of an accepted connection resolved well and its
    [read] returned a non-empty packet, the handler is suspended on
    [wait_for_data] again with its write side open, whatever happened to its
    sends and on other connections: only a zero-length read or a failed read
    round makes it stop. *)
Theorem handler_runs_until_stopped es w c :
  run es init = Some w ->
  c < delivered (_listener w) ->
  forallb keeps_going (events_on c es) = true ->
  exists k, heap w !! c = Some k /\
    data_waits (tcp_conn k) = 1 /\ write_closed (tcp_conn k) = false.
Proof.
  intros Hr Hc Hgo.
  destruct (solo_simulates es w c Hr Hc) as (ws & Hrs & Hh & _).
  rewrite Hh.
  eapply (suspended_stays c (events_on c es) (solo c) ws);
    [apply events_on_all | exact Hgo | apply lookup_singleton_eq
    | reflexivity | reflexivity | exact Hrs].
Qed.

Lemma handler_runs_until_stopped_witness :
  exists k, heap (after two_clients) !! 1 = Some k /\
    data_waits (tcp_conn k) = 1 /\ write_closed (tcp_conn k) = false.
Proof.
  exact (handler_runs_until_stopped two_clients (after two_clients) 1
           ltac:(vm_compute; reflexivity) ltac:(vm_compute; lia)
           ltac:(vm_compute; reflexivity)).
Defined.

(** ** The accept loop in numbers *)

Lemma accepts_issued_app l1 l2 :
  accepts_issued (l1 ++ l2) = accepts_issued l1 + accepts_issued l2.
Proof. unfold accepts_issued. by rewrite List.filter_app, length_app. Qed.

Lemma accepts_issued_data_effect c n k ok rd :
  accepts_issued (snd (data_effect c n k ok rd)) = 0.
Proof. unfold accepts_issued. by rewrite data_effect_no_accept. Qed.

Lemma listener_counts es : forall w w',
  accepts (_listener w) <= 1 ->
  run es w = Some w' ->
  delivered (_listener w')
    = delivered (_listener w) + length (List.filter accept_ok es) /\
  accepts_issued (log w')
    = accepts_issued (log w) + length (List.filter accept_ok es) /\
  accepts (_listener w')
    = (if existsb accept_failed es then 0 else accepts (_listener w)) /\
  length (List.filter accept_failed es) <= 1.
Proof.
  induction es as [|e es IH]; intros w w' Hacc Hr; cbn in Hr.
  - injection Hr as <-. cbn. repeat split; lia.
  - destruct (step e w) as [w1|] eqn:Hs; [|discriminate].
    pose proof Hs as Ht. apply step_turn in Ht.
    destruct Ht as [n Hn|n Hn|c1 k1 n ok rd Hk1 Hn|c1 k1 p rest ok Hk1 Hu].
    + assert (n = 0) as -> by lia.
      match type of Hr with
      | run _ ?w1 = _ =>
          destruct (IH w1 w' ltac:(cbn; lia) Hr) as (Hd & Ha & Hp & Hf)
      end.
      match type of Hr with
      | run _ ?w1 = _ =>
          destruct (stopped_run es w1 w' eq_refl Hr) as (Hl & _ & _ & He)
      end.
      cbn -[accepts_issued] in *. repeat split; try done.
      * rewrite Hp. by destruct (existsb accept_failed es).
      * assert (List.filter accept_failed es = []) as ->; [|cbn; lia].
        clear -He. induction es as [|e es IH]; [done|].
        cbn. destruct e as [[]| |]; cbn;
          try (apply IH; intros b H; apply (He b); by right).
        destruct (He false). by left.
    + match type of Hr with
      | run _ ?w1 = _ =>
          destruct (IH w1 w' ltac:(cbn; lia) Hr) as (Hd & Ha & Hp & Hf)
      end.
      cbn -[accepts_issued] in *. rewrite accepts_issued_app in Ha.
      cbn in Ha. repeat split; try lia. by rewrite Hp, Hn.
    + match type of Hr with
      | run _ ?w1 = _ =>
          destruct (IH w1 w' ltac:(cbn; lia) Hr) as (Hd & Ha & Hp & Hf)
      end.
      cbn -[accepts_issued data_effect] in *.
      rewrite accepts_issued_app, accepts_issued_data_effect in Ha.
      repeat split; try lia; done.
    + match type of Hr with
      | run _ ?w1 = _ =>
          destruct (IH w1 w' ltac:(cbn; lia) Hr) as (Hd & Ha & Hp & Hf)
      end.
      cbn -[accepts_issued] in *. by repeat split.
Qed.

(** X4 (the accept loop in numbers).  In every execution the connections
    handed out are as many as the [accept()] futures that resolved well;
    [accept()] has been called once at the start and once more after each of
    them, never after a failure; an [accept()] is outstanding exactly as
    long as none has failed; and at most one ever fails. *)
Theorem accept_loop_counts es w :
  run es init = Some w ->
  delivered (_listener w) = length (List.filter accept_ok es) /\
  accepts_issued (log w) = S (length (List.filter accept_ok es)) /\
  accepts (_listener w) = (if existsb accept_failed es then 0 else 1) /\
  length (List.filter accept_failed es) <= 1.
Proof.
  intros Hr.
  destruct (listener_counts es init w ltac:(cbn; lia) Hr) as (Hd & Ha & Hp & Hf).
  by repeat split.
Qed.

Lemma accept_loop_counts_witness :
  delivered (_listener (after two_clients))
    = length (List.filter accept_ok two_clients) /\
  accepts_issued (log (after two_clients))
    = S (length (List.filter accept_ok two_clients)) /\
  accepts (_listener (after two_clients))
    = (if existsb accept_failed two_clients then 0 else 1) /\
  length (List.filter accept_failed two_clients) <= 1.
Proof.
  exact (accept_loop_counts two_clients (after two_clients)
           ltac:(vm_compute; reflexivity)).
Defined.

(** ** What the log holds *)

Lemma step_log e w w' :
  step e w = Some w' ->
  log w' = log w ++ turn_ops e w /\
  port (_listener w') = port (_listener w) /\
  delivered (_listener w')
    = (if accept_ok e then S (delivered (_listener w))
       else delivered (_listener w)).
Proof.
  intros Hs. apply step_turn in Hs.
  destruct Hs as [n Hn|n Hn|c1 k1 n ok rd Hk1 Hn|c1 k1 p rest ok Hk1 Hu]; cbn.
  - by rewrite app_nil_r.
  - done.
  - repeat split. destruct ok, rd as [p|]; cbn; try done.
    by destruct (Nat.eqb (len p) 0).
  - by rewrite app_nil_r.
Qed.

Lemma news_app l1 l2 : news (l1 ++ l2) = news l1 ++ news l2.
Proof. apply omap_app. Qed.

Lemma prints_app l1 l2 : prints (l1 ++ l2) = prints l1 ++ prints l2.
Proof. apply omap_app. Qed.

Lemma all_sends_app l1 l2 : all_sends (l1 ++ l2) = all_sends l1 ++ all_sends l2.
Proof. apply omap_app. Qed.


Lemma news_run es : forall w w',
  news (log w) = seq 0 (delivered (_listener w)) ->
  run es w = Some w' ->
  news (log w') = seq 0 (delivered (_listener w')).
Proof.
  induction es as [|e es IH]; intros w w' Hn Hr; cbn in Hr.
  - by injection Hr as <-.
  - destruct (step e w) as [w1|] eqn:Hs; [|discriminate].
    apply (IH w1 w'); [|exact Hr].
    destruct (step_log e w w1 Hs) as (-> & _ & ->).
    rewrite news_app, Hn.
    destruct e as [[]|c [] [p|]|c ok];
      try (cbn; rewrite app_nil_r; reflexivity).
    + cbn [accept_ok]. rewrite seq_S. reflexivity.
    + cbn. destruct (Nat.eqb (len p) 0); cbn; by rewrite app_nil_r.
Qed.

(** X5 (one handler per accepted connection).  In every execution
    [new connection] has been called exactly once for each connection handed
    out, in the order of their arrival, and the handler objects that exist
    are exactly those: none is missing, none is freed, none is made twice. *)
Theorem one_handler_per_connection es w :
  run es init = Some w ->
  news (log w) = seq 0 (delivered (_listener w)) /\
  forall c, is_Some (heap w !! c) <-> c < delivered (_listener w).
Proof.
  intros Hr. split.
  - by apply (news_run es init w).
  - destruct (inv_reachable es w Hr) as (_ & Hsome & Hnone). intros c. split.
    + intros Hc. destruct (decide (c < delivered (_listener w))); [done|].
      destruct (Hnone c ltac:(lia)) as [E _]. rewrite E in Hc. by destruct Hc.
    + intros Hc. destruct (Hsome c Hc) as (k & _ & _ & _ & Hk & _). eauto.
Qed.

Lemma one_handler_per_connection_witness :
  news (log (after two_clients))
    = seq 0 (delivered (_listener (after two_clients))) /\
  forall c, is_Some (heap (after two_clients) !! c)
            <-> c < delivered (_listener (after two_clients)).
Proof.
  exact (one_handler_per_connection two_clients (after two_clients)
           ltac:(vm_compute; reflexivity)).
Defined.

Lemma prints_run es : forall w w',
  prints (log w) = List.map len (all_sends (log w)) ->
  run es w = Some w' ->
  prints (log w') = List.map len (all_sends (log w')).
Proof.
  induction es as [|e es IH]; intros w w' Hp Hr; cbn in Hr.
  - by injection Hr as <-.
  - destruct (step e w) as [w1|] eqn:Hs; [|discriminate].
    apply (IH w1 w'); [|exact Hr].
    destruct (step_log e w w1 Hs) as (-> & _ & _).
    rewrite prints_app, all_sends_app, List.map_app, Hp. f_equal.
    destruct e as [[]|c [] [p|]|c ok]; cbn; try done.
    by destruct (Nat.eqb (len p) 0).
Qed.

(** X6 (what is printed).  The numbers the program prints are, in order,
    the byte counts of the packets it sends, over all connections: one line
    per echo, none for a zero-length read, a failure or an accept. *)
Theorem prints_are_send_lengths es w :
  run es init = Some w ->
  prints (log w) = List.map len (all_sends (log w)).
Proof. intros Hr. by apply (prints_run es init w). Qed.

Lemma prints_are_send_lengths_witness :
  prints (log (after two_clients))
    = List.map len (all_sends (log (after two_clients))).
Proof.
  exact (prints_are_send_lengths two_clients (after two_clients)
           ltac:(vm_compute; reflexivity)).
Defined.




Lemma closes_on_app c l1 l2 :
  closes_on c (l1 ++ l2) = closes_on c l1 + closes_on c l2.
Proof. unfold closes_on. by rewrite List.filter_app, length_app. Qed.

Lemma closes_on_ops_on c l : closes_on c (ops_on c l) = closes_on c l.
Proof.
  induction l as [|o l IH]; [done|].
  destruct o as [q| |c'|c'|c' p|n|c' p|c']; cbn; try exact IH;
    destruct (Nat.eqb c' c) eqn:E; cbn; rewrite ?E; cbn;
    first [exact IH | f_equal; exact IH].
Qed.

Lemma closes_on_echo_cycles c ps : closes_on c (echo_cycles c ps) = 0.
Proof. induction ps as [|p ps IH]; [done | exact IH]. Qed.

(** X8 (one end of stream, one close).  On every connection the packets
    read are the packets sent back, followed by a single empty packet if and
    only if the write side has been closed; and [close_write] has been called
    once in that case and never otherwise.  So a zero-length read is always
    the last read, and the write side is never closed twice. *)
Theorem reads_are_sends_then_eof es w c k :
  run es init = Some w ->
  heap w !! c = Some k ->
  reads_on c (log w)
    = sends_on c (log w) ++ (if write_closed (tcp_conn k) then [[]] else []) /\
  closes_on c (log w) = (if write_closed (tcp_conn k) then 1 else 0).
Proof.
  intros Hr Hk.
  destruct (inv_lookup w c k (inv_reachable es w Hr) Hk)
    as (ps & fin & ph & _ & _ & _ & Hc & Hops).
  rewrite <- reads_on_ops_on, <- sends_on_ops_on, <- closes_on_ops_on, Hops.
  rewrite reads_on_app, sends_on_app, closes_on_app, reads_on_echo_cycles,
    sends_on_echo_cycles, closes_on_echo_cycles, Hc.
  destruct ph; cbn; rewrite ?Nat.eqb_refl; cbn; by rewrite ?app_nil_r.
Qed.

Lemma reads_are_sends_then_eof_witness :
  reads_on 0 (log (after two_clients))
    = sends_on 0 (log (after two_clients))
        ++ (if write_closed (tcp_conn
                 (set_write_closed true (set_data_waits 0 fresh)))
            then [[]] else []) /\
  closes_on 0 (log (after two_clients))
    = (if write_closed (tcp_conn
             (set_write_closed true (set_data_waits 0 fresh)))
       then 1 else 0).
Proof.
  exact (reads_are_sends_then_eof two_clients (after two_clients) 0
           (set_write_closed true (set_data_waits 0 fresh))
           ltac:(vm_compute; reflexivity) ltac:(vm_compute; reflexivity)).
Defined.

Lemma accept_view_run es : forall w w',
  accept_view (log w) = OAccept :: accept_rounds (delivered (_listener w)) ->
  run es w = Some w' ->
  accept_view (log w') = OAccept :: accept_rounds (delivered (_listener w')).
Proof.
  induction es as [|e es IH]; intros w w' Hv Hr; cbn in Hr.
  - by injection Hr as <-.
  - destruct (step e w) as [w1|] eqn:Hs; [|discriminate].
    apply (IH w1 w'); [|exact Hr].
    destruct (step_log e w w1 Hs) as (-> & _ & ->).
    unfold accept_view in *. rewrite List.filter_app, Hv.
    destruct e as [[]|c [] [p|]|c ok];
      try (cbn; rewrite app_nil_r; reflexivity).
    + cbn [accept_ok]. unfold accept_rounds.
      rewrite seq_S, flat_map_app. reflexivity.
    + cbn. destruct (Nat.eqb (len p) 0); cbn; by rewrite app_nil_r.
Qed.

(** X9 (program order of the accept loop).  The accept loop's own calls
    are, in every execution, the first [accept()] followed by one round
    [new connection; accept()] per connection handed out, in order of
    arrival: the handler of a connection is made before the next [accept()]
    is issued, and nothing else is ever called by the loop. *)
Theorem accept_loop_program_order es w :
  run es init = Some w ->
  accept_view (log w) = OAccept :: accept_rounds (delivered (_listener w)).
Proof. intros Hr. by apply (accept_view_run es init w). Qed.

Lemma accept_loop_program_order_witness :
  accept_view (log (after two_clients))
    = OAccept :: accept_rounds (delivered (_listener (after two_clients))).
Proof.
  exact (accept_loop_program_order two_clients (after two_clients)
           ltac:(vm_compute; reflexivity)).
Defined.

Lemma sends_run c es : forall w w',
  run es w = Some w' ->
  all_sends (log w') = all_sends (log w) ++ omap payload es /\
  sends_on c (log w') = sends_on c (log w) ++ omap payload (events_on c es).
Proof.
  induction es as [|e es IH]; intros w w' Hr; cbn in Hr.
  - injection Hr as <-. cbn. by rewrite !app_nil_r.
  - destruct (step e w) as [w1|] eqn:Hs; [|discriminate].
    destruct (IH w1 w' Hr) as [-> ->].
    destruct (step_log e w w1 Hs) as (-> & _ & _).
    rewrite all_sends_app, sends_on_app, <- !app_assoc.
    destruct e as [ok|c1 ok rd|c1 ok].
    + by destruct ok.
    + destruct ok, rd as [p|]; cbn; try (by destruct (Nat.eqb c1 c)).
      destruct (Nat.eqb (len p) 0) eqn:Hp; cbn;
        destruct (Nat.eqb c1 c) eqn:E; cbn; rewrite ?Hp; cbn; done.
    + cbn. by destruct (Nat.eqb c1 c).
Qed.

(** X10 (what comes in goes out).  In every execution the packets sent,
    over all connections and on each connection alone, are exactly the
    non-empty packets that successful read rounds handed to the handlers, in
    the order of those rounds: each is echoed once, nothing is sent that was
    not received, and failed rounds and zero-length reads send nothing. *)
Theorem sends_are_the_packets_received es w c :
  run es init = Some w ->
  all_sends (log w) = omap payload es /\
  sends_on c (log w) = omap payload (events_on c es).
Proof. intros Hr. exact (sends_run c es init w Hr). Qed.

Lemma sends_are_the_packets_received_witness :
  all_sends (log (after two_clients)) = omap payload two_clients /\
  sends_on 1 (log (after two_clients)) = omap payload (events_on 1 two_clients).
Proof.
  exact (sends_are_the_packets_received two_clients (after two_clients) 1
           ltac:(vm_compute; reflexivity)).
Defined.
